(** * Tic-Tac-Toe front end: the game engine of [App.js]

    A shallow embedding of the game logic of
    [tic_tac_toe_frontend/src/App.js]: the outcome evaluator
    ([calculateWinner], [getWinningLine]), the move selector
    ([chooseBestMove]) and the session state held by the [App]
    component (its click handler, its two effects, [restartGame] and
    [switchMode]) and what the component renders (the status line and the
    grid of the [Board] component), followed by the properties of the
    specification and further properties of the code. *)

From stdpp Require Import base decidable option list strings pretty.
From Stdlib Require Import ZArith Lia.

Local Open Scope nat_scope.

(** ** JavaScript values stored in the board *)

(** The two player symbols, the strings ['X'] and ['O']. *)
Inductive mark : Set := X | O.

(** What an array read can produce: [undefined] (a hole of the array or an
    index past its end), [null] (an empty cell) or a player's string.  The
    program never stores [undefined] itself, so inside a list [Undefined]
    stands for a hole of a sparse array. *)
Inductive value : Set :=
  | Undefined
  | Null
  | Mark (m : mark).

#[global] Instance mark_eq_dec : EqDecision mark.
Proof. solve_decision. Defined.

#[global] Instance value_eq_dec : EqDecision value.
Proof. solve_decision. Defined.

(** [Boolean(v)]: a non-empty string is truthy, [null] and [undefined] are
    falsy. *)
Definition Boolean (v : value) : bool :=
  match v with
  | Mark _ => true
  | Undefined | Null => false
  end.

(** [v === w] on these values. *)
Definition strict_eq (v w : value) : bool := bool_decide (v = w).

(** ** Arrays *)

Module JsArray.

(** [a[i]]: reading a hole or past the end gives [undefined]. *)
Definition get (a : list value) (i : nat) : value :=
  default Undefined (a !! i).

(** [a[i] = v]: inside the array the slot is overwritten; past the end
    the array grows, leaving holes between the old end and [i]. *)
Definition set (a : list value) (i : nat) (v : value) : list value :=
  if decide (i < length a) then <[i:=v]> a
  else a ++ replicate (i - length a) Undefined ++ [v].

(** [a.slice()]: a copy, holes included. *)
Definition slice (a : list value) : list value := a.

(** [Array(n).fill(v)]. *)
Definition fill (n : nat) (v : value) : list value := replicate n v.

(** [a.every(f)]: the callback is not called on holes. *)
Definition every (f : value → bool) (a : list value) : bool :=
  forallb (λ v, match v with Undefined => true | _ => f v end) a.

End JsArray.

Import JsArray.

(** ** Outcome evaluator *)

Definition line : Set := (nat * nat * nat)%type.

Definition WIN_LINES : list line :=
  [ (0, 1, 2);
    (3, 4, 5);
    (6, 7, 8);
    (0, 3, 6);
    (1, 4, 7);
    (2, 5, 8);
    (0, 4, 8);
    (2, 4, 6) ].

(** The test of both evaluator loops:
    [squares[a] && squares[a] === squares[b] && squares[a] === squares[c]]. *)
Definition line_test (squares : list value) (l : line) : bool :=
  let '(a, b, c) := l in
  Boolean (get squares a)
  && strict_eq (get squares a) (get squares b)
  && strict_eq (get squares a) (get squares c).

(** The [for] loop of [calculateWinner] over the remaining [lines]. *)
Fixpoint calculateWinner_from (lines : list line) (squares : list value) : value :=
  match lines with
  | [] => Null
  | (a, b, c) :: rest =>
      if line_test squares (a, b, c) then get squares a
      else calculateWinner_from rest squares
  end.

Definition calculateWinner (squares : list value) : value :=
  calculateWinner_from WIN_LINES squares.

(** The [for] loop of [getWinningLine]; [None] is its [null]. *)
Fixpoint getWinningLine_from (lines : list line) (squares : list value) : option line :=
  match lines with
  | [] => None
  | (a, b, c) :: rest =>
      if line_test squares (a, b, c) then Some (a, b, c)
      else getWinningLine_from rest squares
  end.

Definition getWinningLine (squares : list value) : option line :=
  getWinningLine_from WIN_LINES squares.

(** ** Move selector *)

(** Body of the two scanning loops of [chooseBestMove] at index [i]:
    the cell is falsy and the evaluator reports [m] on a copy with [m]
    written at [i]. *)
Definition wins_with (squares : list value) (m : mark) (i : nat) : bool :=
  negb (Boolean (get squares i))
  && strict_eq (calculateWinner (set (slice squares) i (Mark m))) (Mark m).

(** [for (let i = 0; i < 9; i += 1) if (...) return i]. *)
Definition scan (squares : list value) (m : mark) : option nat :=
  find (wins_with squares m) (seq 0 9).

(** [[...].filter((i) => !squares[i])]. *)
Definition free_of (squares : list value) (cells : list nat) : list nat :=
  filter (λ i, Boolean (get squares i) = false) cells.

Definition chooseBestMove (squares : list value) (ai human : mark) : Z :=
  match scan squares ai with
  | Some i => Z.of_nat i
  | None =>
  match scan squares human with
  | Some i => Z.of_nat i
  | None =>
  if negb (Boolean (get squares 4)) then 4%Z
  else
  match free_of squares [0; 2; 6; 8] with
  | corner :: _ => Z.of_nat corner
  | [] =>
  match free_of squares [1; 3; 5; 7] with
  | side :: _ => Z.of_nat side
  | [] => (-1)%Z
  end end end end.

(** ** Game session: the state of the [App] component *)

(** The strings ['pvp'] and ['pvc']. *)
Inductive Mode : Set := pvp | pvc.

#[global] Instance Mode_eq_dec : EqDecision Mode.
Proof. solve_decision. Defined.

(** The four [useState] cells of the component (the constant [theme]
    apart). *)
Record State : Set := mkState {
  board : list value;
  xIsNext : bool;
  mode : Mode;
  isGameOver : bool
}.

#[global] Instance State_eq_dec : EqDecision State.
Proof. solve_decision. Defined.

(** The state of the first render. *)
Definition initial : State :=
  {| board := fill 9 Null; xIsNext := true; mode := pvp; isGameOver := false |}.

(** The two [useMemo] values of a render. *)
Definition winner (board : list value) : value := calculateWinner board.

Definition isDraw (board : list value) : bool :=
  negb (Boolean (winner board)) && every Boolean board.

(** [Boolean(winner) || isDraw], the value the first effect stores in
    [isGameOver]. *)
Definition gameOver (board : list value) : bool :=
  Boolean (winner board) || isDraw board.

(** [xIsNext ? 'X' : 'O']. *)
Definition turn (s : State) : mark := if xIsNext s then X else O.

(** [handleCellClick], closed over the state [s] of the render that
    created it. *)
Definition handleCellClick (s : State) (index : nat) : State :=
  if isGameOver s || Boolean (get (board s) index) then s
  else
    let nextBoard := set (slice (board s)) index (Mark (turn s)) in
    {| board := nextBoard;
       xIsNext := negb (xIsNext s);
       mode := mode s;
       isGameOver := isGameOver s |}.

Definition restartGame (s : State) : State :=
  {| board := fill 9 Null; xIsNext := true; mode := mode s; isGameOver := false |}.

Definition switchMode (s : State) (newMode : Mode) : State :=
  {| board := fill 9 Null; xIsNext := true; mode := newMode; isGameOver := false |}.

(** *** The two effects

    An effect is created by a render and reads that render's state
    [render]; its [set...] calls are queued, so they are applied to the
    state [acc] that the effects of this commit have produced so far and
    are only visible to the next render. *)

(** [setIsGameOver(Boolean(winner) || isDraw)]. *)
Definition gameOverEffect (render acc : State) : State :=
  {| board := board acc;
     xIsNext := xIsNext acc;
     mode := mode acc;
     isGameOver := gameOver (board render) |}.

(** The computer's move. *)
Definition aiEffect (render acc : State) : State :=
  if decide (mode render ≠ pvc) then acc
  else if isGameOver render then acc
  else if negb (xIsNext render) then
    let move := chooseBestMove (board render) O X in
    if decide (move ≠ (-1)%Z) then
      let nextBoard := set (slice (board render)) (Z.to_nat move) (Mark O) in
      {| board := nextBoard;
         xIsNext := true;
         mode := mode acc;
         isGameOver := isGameOver acc |}
    else acc
  else acc.

(** Dependencies [[winner, isDraw]] of the first effect against those of
    the previous render ([None] on mount). *)
Definition deps_changed (prev : option State) (render : State) : bool :=
  match prev with
  | None => true
  | Some p =>
      negb (strict_eq (winner (board p)) (winner (board render))
            && bool_decide (isDraw (board p) = isDraw (board render)))
  end.

(** The effects of one commit, in the order of their declaration.  The
    dependencies of the second one are the whole state, and a render only
    follows a change of the state, so it runs after every render. *)
Definition runEffects (prev : option State) (render : State) : State :=
  let acc := if deps_changed prev render then gameOverEffect render render
             else render in
  aiEffect render acc.

(** Rendering again as long as the effects change the state; [prev] is the
    render before [render]. *)
Fixpoint rerender (fuel : nat) (prev render : State) : option State :=
  match fuel with
  | 0 => None
  | S fuel' =>
      let next := runEffects (Some prev) render in
      if decide (next = render) then Some render
      else rerender fuel' render next
  end.

(** What the user interface can send. *)
Inductive event : Set :=
  | cellClicked (index : nat)
  | restartRequested
  | modeSelected (newMode : Mode).

Definition handle (s : State) (e : event) : State :=
  match e with
  | cellClicked index => handleCellClick s index
  | restartRequested => restartGame s
  | modeSelected newMode => switchMode s newMode
  end.

(** Renders after one event never exceed this number (see
    [rerender_settles]). *)
Definition max_renders : nat := 5.

(** One event: the handler of the current render, then the renders and
    effects that follow until the state is stable.  A handler that makes no
    [set...] call causes no render; here the effects are run all the same,
    which changes nothing in a state reached between events (see
    [reachable_settled]). *)
Definition dispatch (s : State) (e : event) : option State :=
  rerender max_renders s (handle s e).

Fixpoint run (s : State) (events : list event) : option State :=
  match events with
  | [] => Some s
  | e :: rest =>
      match dispatch s e with
      | Some s' => run s' rest
      | None => None
      end
  end.

(** ** Vocabulary of the specification *)

(** The three cells of the line [l] all hold the mark [m]: a completed
    three-in-a-row. *)
Definition line_held (squares : list value) (l : line) (m : mark) : Prop :=
  let '(a, b, c) := l in
  get squares a = Mark m ∧ get squares b = Mark m ∧ get squares c = Mark m.

Definition on_line (i : nat) (l : line) : Prop :=
  let '(a, b, c) := l in i = a ∨ i = b ∨ i = c.

(** Cell [i] of the 3x3 board is empty. *)
Definition empty_cell (squares : list value) (i : nat) : Prop :=
  i < 9 ∧ Boolean (get squares i) = false.

(** Writing [m] in cell [i] completes a three-in-a-row of [m] through
    [i]. *)
Definition completes (squares : list value) (m : mark) (i : nat) : Prop :=
  ∃ l, l ∈ WIN_LINES ∧ on_line i l ∧ line_held (set squares i (Mark m)) l m.

(** A board of the data model: nine cells, each [null] or a mark. *)
Definition well_formed (squares : list value) : Prop :=
  length squares = 9 ∧ Undefined ∉ squares.

(** The states the component goes through between events. *)
Inductive reachable : State → Prop :=
  | reachable_initial : reachable initial
  | reachable_dispatch s e s' :
      reachable s → dispatch s e = Some s' → reachable s'.

(** ** What the component renders *)

(** A mark inside a template literal. *)
Definition mark_string (m : mark) : string :=
  match m with
  | X => "X"
  | O => "O"
  end.

(** The status line of [App]. *)
Definition statusText (s : State) : string :=
  match winner (board s) with
  | Mark m => "Winner: " +:+ mark_string m
  | Undefined | Null =>
      if isDraw (board s) then "Draw!"
      else "Turn: " +:+ mark_string (turn s)
  end.

(** One [<button>] of the grid: whether its class has [win], its
    [aria-label], its [disabled] attribute, its content, and the index its
    [onClick] passes to [onCellClick]. *)
Record Button : Set := mkButton {
  win : bool;
  ariaLabel : string;
  disabled : bool;
  children : value;
  onClick : nat
}.

(** [winningLine?.includes(idx)], falsy without a winning line. *)
Definition isWinningCell (winningLine : option line) (idx : nat) : bool :=
  match winningLine with
  | Some (a, b, c) =>
      bool_decide (idx = a) || bool_decide (idx = b) || bool_decide (idx = c)
  | None => false
  end.

(** The [Board] component: [board.map] makes one button per cell and
    leaves the holes of a sparse array as holes ([None]). *)
Definition Board (board : list value) (gameOver : bool) : list (option Button) :=
  let winningLine := getWinningLine board in
  imap (λ idx value,
    match value with
    | Undefined => None
    | Null | Mark _ =>
        Some {| win := isWinningCell winningLine idx;
                ariaLabel :=
                  "Cell " +:+ pretty (idx + 1)
                  +:+ match value with
                      | Mark m => ", " +:+ mark_string m
                      | Undefined | Null => ""
                      end;
                disabled := gameOver || Boolean value;
                children := value;
                onClick := idx |}
    end) board.

(** Whether a slot of the grid shows a button of class [win]. *)
Definition highlighted (slot : option Button) : bool :=
  match slot with
  | Some b => win b
  | None => false
  end.

(** The grid as [App] renders it. *)
Definition grid (s : State) : list (option Button) :=
  Board (board s) (isGameOver s).

(** The events the rendered page can produce: a click reaches
    [onCellClick] only through a button of the grid that is not disabled;
    the three control buttons are always there. *)
Definition offered (s : State) (e : event) : Prop :=
  match e with
  | cellClicked index =>
      ∃ slot b, grid s !! slot = Some (Some b)
                ∧ disabled b = false ∧ onClick b = index
  | restartRequested | modeSelected _ => True
  end.

(** The states a user can reach through the page. *)
Inductive playable : State → Prop :=
  | playable_initial : playable initial
  | playable_dispatch s e s' :
      playable s → offered s e → dispatch s e = Some s' → playable s'.


(** The order in which [chooseBestMove] tries the cells once no line can
    be completed: the centre, the corners, the sides. *)
Definition preference : list nat := [4; 0; 2; 6; 8; 1; 3; 5; 7].

(** What the loop of renders maintains about [isGameOver]: where the first
    effect is not going to run, the flag is already right. *)
Definition flag_pending (prev render : State) : Prop :=
  deps_changed (Some prev) render = false
  → isGameOver render = gameOver (board render).

(** * Properties *)

(** ** Arrays *)

Section Arrays.
Implicit Types (a : list value) (i j : nat) (v : value).

Lemma get_set a i j v :
  get (set a i v) j = if decide (j = i) then v else get a j.
Proof.
  unfold get, set.
  destruct (decide (i < length a)) as [Hlt | Hge].
  - destruct (decide (j = i)) as [-> | Hne].
    + by rewrite list_lookup_insert_eq.
    + by rewrite list_lookup_insert_ne.
  - destruct (decide (j = i)) as [-> | Hne].
    + rewrite lookup_app_r by lia.
      rewrite lookup_app_r by (rewrite length_replicate; lia).
      rewrite length_replicate.
      by replace (i - length a - (i - length a)) with 0 by lia.
    + destruct (decide (j < length a)) as [Hj | Hj].
      * by rewrite lookup_app_l.
      * rewrite lookup_app_r by lia.
        rewrite (lookup_ge_None_2 a j) by lia. simpl.
        destruct (decide (j < i)) as [Hji | Hji].
        -- rewrite lookup_app_l by (rewrite length_replicate; lia).
           by rewrite lookup_replicate_2 by lia.
        -- rewrite lookup_ge_None_2; [done |].
           rewrite length_app, length_replicate. simpl. lia.
Qed.

Lemma get_set_eq a i v : get (set a i v) i = v.
Proof. rewrite get_set. by rewrite decide_True. Qed.

Lemma get_set_ne a i j v : j ≠ i → get (set a i v) j = get a j.
Proof. intros. rewrite get_set. by rewrite decide_False. Qed.

Lemma set_in_range a i v : i < length a → set a i v = <[i:=v]> a.
Proof. intros. unfold set. by rewrite decide_True. Qed.

Lemma length_set_in_range a i v : i < length a → length (set a i v) = length a.
Proof. intros. rewrite set_in_range by done. apply length_insert. Qed.

Lemma get_fill n v i : i < n → get (fill n v) i = v.
Proof. intros. unfold get, fill. by rewrite lookup_replicate_2. Qed.

Lemma strict_eq_true v w : strict_eq v w = true ↔ v = w.
Proof. unfold strict_eq. apply bool_decide_eq_true. Qed.

Lemma Boolean_true v : Boolean v = true ↔ ∃ m, v = Mark m.
Proof. destruct v; simpl; split; try done; eauto; by intros [? ?]. Qed.

End Arrays.

(** Case analysis on a membership in an explicit list such as
    [WIN_LINES]. *)
Ltac each_member H :=
  repeat (apply elem_of_cons in H as [-> | H]);
  [.. | by apply elem_of_nil in H].

(** A [line_held] hypothesis on an explicit board, read cell by cell. *)
Ltac read_line H :=
  let H1 := fresh in let H2 := fresh in let H3 := fresh in
  destruct H as (H1 & H2 & H3); cbv in H1, H2, H3; congruence.

(** A statement about every empty cell of an explicit board, cell by
    cell and line by line. *)
Ltac cells_below n i Hempty :=
  lazymatch n with
  | 0 => exfalso; lia
  | S ?k => destruct i as [| i]; [try (by cbv in Hempty) | cells_below k i Hempty]
  end.

Tactic Notation "each_cell" ident(i) ident(Hempty) := cells_below 9 i Hempty.

(** ** Outcome evaluator *)

Section Evaluator.
Implicit Types (squares : list value) (l : line) (m : mark).

Lemma line_test_held squares l :
  line_test squares l = true ↔ ∃ m, line_held squares l m.
Proof.
  destruct l as [[a b] c]. unfold line_test, line_held.
  rewrite !andb_true_iff, !strict_eq_true, Boolean_true. split.
  - intros [[[m Ha] Hb] Hc]. exists m. by rewrite <- Hb, <- Hc.
  - intros (m & Ha & Hb & Hc). rewrite Ha, Hb, Hc. eauto.
Qed.

Lemma line_held_first squares l m :
  line_held squares l m → get squares l.1.1 = Mark m.
Proof. destruct l as [[a b] c]. by intros (? & _). Qed.

Lemma line_held_inj squares l m m' :
  line_held squares l m → line_held squares l m' → m = m'.
Proof.
  intros H H'. apply line_held_first in H, H'. congruence.
Qed.

(** Both loops stop at the same place: the first line that passes the
    test. *)
Lemma first_line lines squares :
  ((∀ l, l ∈ lines → line_test squares l = false)
   ∧ calculateWinner_from lines squares = Null
   ∧ getWinningLine_from lines squares = None)
  ∨ (∃ l m, l ∈ lines ∧ line_held squares l m
     ∧ calculateWinner_from lines squares = Mark m
     ∧ getWinningLine_from lines squares = Some l).
Proof.
  induction lines as [| [[a b] c] rest IH];
    cbn [calculateWinner_from getWinningLine_from].
  - left. split; [| done]. intros l Hl. by apply elem_of_nil in Hl.
  - destruct (line_test squares (a, b, c)) eqn:Htest.
    + right. apply line_test_held in Htest as [m Hm].
      exists (a, b, c), m. split; [apply list_elem_of_here |].
      split; [done |]. split; [| done]. by destruct Hm as (-> & _).
    + destruct IH as [(Hall & Hw & Hl) | (l & m & Hin & Hm & Hw & Hl)].
      * left. split; [| done]. intros l [-> | Hin]%elem_of_cons; auto.
      * right. exists l, m. split; [by apply list_elem_of_further |]. done.
Qed.

Lemma calculateWinner_Null squares :
  calculateWinner squares = Null
  ↔ ∀ l m, l ∈ WIN_LINES → ¬ line_held squares l m.
Proof.
  unfold calculateWinner. split.
  - intros Hw l m Hin Hm.
    destruct (first_line WIN_LINES squares)
      as [(Hall & _) | (? & ? & _ & _ & Hw' & _)]; [| congruence].
    specialize (Hall l Hin).
    assert (line_test squares l = true) by (apply line_test_held; eauto).
    congruence.
  - intros Hnone.
    destruct (first_line WIN_LINES squares)
      as [(_ & Hw & _) | (l & m & Hin & Hm & _)]; [done |].
    by destruct (Hnone l m).
Qed.

Lemma calculateWinner_Mark squares m :
  calculateWinner squares = Mark m
  → ∃ l, l ∈ WIN_LINES ∧ line_held squares l m.
Proof.
  unfold calculateWinner. intros Hw.
  destruct (first_line WIN_LINES squares)
    as [(_ & Hw' & _) | (l & m' & Hin & Hm & Hw' & _)]; [congruence |].
  exists l. split; [done |]. congruence.
Qed.

Lemma calculateWinner_cases squares :
  calculateWinner squares = Null ∨ ∃ m, calculateWinner squares = Mark m.
Proof.
  unfold calculateWinner.
  destruct (first_line WIN_LINES squares)
    as [(_ & Hw & _) | (l & m & _ & _ & Hw & _)]; eauto.
Qed.

End Evaluator.

(** C1. On a board without a completed three-in-a-row both evaluator
    functions answer [null]; on a board where exactly one of the eight lines
    is held by a single mark, [calculateWinner] answers that mark and
    [getWinningLine] that very triple of indices. *)
Theorem evaluator_correct (squares : list value) :
  ((∀ l m, l ∈ WIN_LINES → ¬ line_held squares l m)
   → calculateWinner squares = Null ∧ getWinningLine squares = None)
  ∧ (∀ l m,
       l ∈ WIN_LINES → line_held squares l m
       → (∀ l' m', l' ∈ WIN_LINES → line_held squares l' m' → l' = l)
       → calculateWinner squares = Mark m ∧ getWinningLine squares = Some l).
Proof.
  unfold calculateWinner, getWinningLine.
  destruct (first_line WIN_LINES squares)
    as [(Hall & Hw & Hl) | (l0 & m0 & Hin0 & Hm0 & Hw & Hl)]; split.
  - done.
  - intros l m Hin Hm _. specialize (Hall l Hin).
    assert (line_test squares l = true) by (apply line_test_held; eauto).
    congruence.
  - intros Hnone. by destruct (Hnone l0 m0).
  - intros l m Hin Hm Huniq.
    pose proof (Huniq l0 m0 Hin0 Hm0) as ->.
    rewrite Hw, Hl. by rewrite (line_held_inj squares l m m0).
Qed.

Lemma evaluator_correct_witness :
  (calculateWinner (fill 9 Null) = Null ∧ getWinningLine (fill 9 Null) = None)
  ∧ (calculateWinner
       [Mark X; Mark X; Mark X; Null; Mark O; Null; Null; Mark O; Null]
     = Mark X
     ∧ getWinningLine
         [Mark X; Mark X; Mark X; Null; Mark O; Null; Null; Mark O; Null]
       = Some (0, 1, 2)).
Proof.
  split.
  - apply (proj1 (evaluator_correct (fill 9 Null))).
    intros l m Hin Hm. each_member Hin; read_line Hm.
  - apply (proj2 (evaluator_correct _) (0, 1, 2) X).
    + apply list_elem_of_here.
    + by repeat split.
    + intros l' m' Hin Hm. each_member Hin; read_line Hm.
Defined.

(** C10. The two evaluator functions agree on every list of cells, also on
    boards with several completed lines: one answers [null] exactly when
    the other does, and otherwise [getWinningLine] answers one of the eight
    triples of [WIN_LINES], whose three cells hold the mark that
    [calculateWinner] answers. *)
Theorem evaluators_agree (squares : list value) :
  (getWinningLine squares = None ↔ calculateWinner squares = Null)
  ∧ (∀ l, getWinningLine squares = Some l
       → l ∈ WIN_LINES
         ∧ ∃ m, calculateWinner squares = Mark m ∧ line_held squares l m).
Proof.
  unfold calculateWinner, getWinningLine.
  destruct (first_line WIN_LINES squares)
    as [(Hall & Hw & Hl) | (l0 & m0 & Hin0 & Hm0 & Hw & Hl)];
    rewrite Hw, Hl.
  - split; [done |]. intros l [=].
  - split; [split; intros [=] |]. intros l [= <-]. eauto.
Qed.

Lemma evaluators_agree_witness :
  (0, 1, 2) ∈ WIN_LINES
  ∧ ∃ m, calculateWinner
           [Mark X; Mark X; Mark X; Mark O; Mark O; Mark O; Null; Null; Null]
         = Mark m
       ∧ line_held
           [Mark X; Mark X; Mark X; Mark O; Mark O; Mark O; Null; Null; Null]
           (0, 1, 2) m.
Proof.
  by apply (proj2 (evaluators_agree
    [Mark X; Mark X; Mark X; Mark O; Mark O; Mark O; Null; Null; Null])).
Defined.

(** ** Move selector *)

Section Selector.
Implicit Types (squares : list value) (m ai human : mark) (i j : nat).

(** A [for] loop that returns the first index passing a test. *)
Lemma find_seq_Some (p : nat → bool) start n i :
  find p (seq start n) = Some i
  ↔ start ≤ i < start + n ∧ p i = true
    ∧ ∀ j, start ≤ j < i → p j = false.
Proof.
  revert start. induction n as [| n IH]; intros start; simpl.
  - split; [done | lia].
  - destruct (p start) eqn:Hp.
    + split.
      * intros [= <-]. split; [lia |]. split; [done |]. lia.
      * intros (Hi & Hpi & Hleast).
        destruct (decide (i = start)) as [-> | Hne]; [done |].
        rewrite Hleast in Hp by lia. done.
    + rewrite IH. split.
      * intros (Hi & Hpi & Hleast). split; [lia |]. split; [done |].
        intros j Hj. destruct (decide (j = start)) as [-> | Hne]; [done |].
        apply Hleast. lia.
      * intros (Hi & Hpi & Hleast).
        assert (i ≠ start) by congruence.
        split; [lia |]. split; [done |]. intros j Hj. apply Hleast. lia.
Qed.

Lemma find_seq_None (p : nat → bool) start n :
  find p (seq start n) = None ↔ ∀ j, start ≤ j < start + n → p j = false.
Proof.
  revert start. induction n as [| n IH]; intros start; simpl.
  - split; [lia | done].
  - destruct (p start) eqn:Hp.
    + split; [done |]. intros H. rewrite H in Hp by lia. done.
    + rewrite IH. split.
      * intros H j Hj. destruct (decide (j = start)) as [-> | Hne]; [done |].
        apply H. lia.
      * intros H j Hj. apply H. lia.
Qed.

Lemma scan_Some squares m i :
  scan squares m = Some i
  ↔ i < 9 ∧ wins_with squares m i = true
    ∧ ∀ j, j < i → wins_with squares m j = false.
Proof.
  unfold scan. rewrite find_seq_Some. split.
  - intros (Hi & Hp & Hleast). split; [lia |]. split; [done |].
    intros j Hj. apply Hleast. lia.
  - intros (Hi & Hp & Hleast). split; [lia |]. split; [done |].
    intros j Hj. apply Hleast. lia.
Qed.

Lemma scan_None squares m :
  scan squares m = None ↔ ∀ j, j < 9 → wins_with squares m j = false.
Proof.
  unfold scan. rewrite find_seq_None. split.
  - intros H j Hj. apply H. lia.
  - intros H j Hj. apply H. lia.
Qed.

Lemma wins_with_empty squares m i :
  wins_with squares m i = true → Boolean (get squares i) = false.
Proof.
  unfold wins_with. intros [H _]%andb_true_iff. by apply negb_true_iff.
Qed.

Lemma line_held_off_line squares l m m' i :
  ¬ on_line i l → line_held (set squares i (Mark m')) l m
  → line_held squares l m.
Proof.
  destruct l as [[a b] c]. unfold on_line, line_held. intros Hoff.
  rewrite !get_set_ne by (intros ->; apply Hoff; auto). done.
Qed.

Lemma line_held_on_line squares l m m' i :
  on_line i l → line_held (set squares i (Mark m')) l m → m = m'.
Proof.
  destruct l as [[a b] c]. unfold on_line, line_held.
  intros [-> | [-> | ->]] (Ha & Hb & Hc);
    rewrite get_set_eq in *; congruence.
Qed.

Lemma on_line_dec i l : on_line i l ∨ ¬ on_line i l.
Proof.
  destruct l as [[a b] c]. unfold on_line.
  destruct (decide (i = a)), (decide (i = b)), (decide (i = c)); tauto.
Qed.

(** While no line is completed yet, the test of the scanning loops is
    the test of the specification: the move completes a three-in-a-row
    of its own mark. *)
Lemma wins_with_completes squares m i :
  calculateWinner squares = Null → Boolean (get squares i) = false
  → wins_with squares m i = true ↔ completes squares m i.
Proof.
  intros Hnone Hempty.
  pose proof (proj1 (calculateWinner_Null squares) Hnone) as Hfree.
  clear Hnone. rename Hfree into Hnone.
  unfold wins_with, completes, slice.
  rewrite Hempty, andb_true_l, strict_eq_true. split.
  - intros (l & Hin & Hm)%calculateWinner_Mark.
    exists l. split; [done |]. split; [| done].
    destruct (on_line_dec i l) as [Hon | Hoff]; [done |].
    destruct (Hnone l m Hin). by eapply line_held_off_line.
  - intros (l & Hin & Hon & Hm).
    destruct (calculateWinner_cases (set squares i (Mark m)))
      as [Hw | [m' Hw]].
    + pose proof (proj1 (calculateWinner_Null _) Hw) as Hw'.
      by destruct (Hw' l m).
    + rewrite Hw. f_equal.
      apply calculateWinner_Mark in Hw as (l' & Hin' & Hm').
      destruct (on_line_dec i l') as [Hon' | Hoff'].
      * by eapply line_held_on_line.
      * destruct (Hnone l' m' Hin'). by eapply line_held_off_line.
Qed.

Lemma free_of_head squares cells i rest :
  free_of squares cells = i :: rest
  → i ∈ cells ∧ Boolean (get squares i) = false.
Proof.
  unfold free_of. intros Heq.
  assert (i ∈ filter (λ i, Boolean (get squares i) = false) cells) as Hi
    by (rewrite Heq; apply list_elem_of_here).
  apply list_elem_of_filter in Hi. tauto.
Qed.

Lemma free_of_nil squares cells i :
  free_of squares cells = [] → i ∈ cells → Boolean (get squares i) = true.
Proof.
  unfold free_of. intros Heq Hi.
  destruct (Boolean (get squares i)) eqn:Hb; [done |].
  by destruct (filter_nil_not_elem_of _ _ i Heq).
Qed.

(** The priority list of [chooseBestMove] ends on -1 only after it has
    found the centre, the four corners and the four sides occupied; every
    earlier exit returns a cell it has just seen empty. *)
Lemma chooseBestMove_cases squares ai human :
  chooseBestMove squares ai human = (-1)%Z
    ∧ (∀ i, i < 9 → Boolean (get squares i) = true)
  ∨ ∃ r, chooseBestMove squares ai human = Z.of_nat r ∧ empty_cell squares r.
Proof.
  unfold chooseBestMove, empty_cell.
  destruct (scan squares ai) as [r |] eqn:Hai.
  { apply scan_Some in Hai as (Hr & Hwr & _).
    right. exists r. eauto using wins_with_empty. }
  destruct (scan squares human) as [r |] eqn:Hhuman.
  { apply scan_Some in Hhuman as (Hr & Hwr & _).
    right. exists r. eauto using wins_with_empty. }
  destruct (Boolean (get squares 4)) eqn:Hcenter; simpl.
  2: { right. exists 4. split; [done |]. split; [lia | done]. }
  destruct (free_of squares [0; 2; 6; 8]) as [| corner ?] eqn:Hcorners.
  2: { apply free_of_head in Hcorners as [Hin Hempty].
       right. exists corner. split; [done |]. split; [| done].
       each_member Hin; lia. }
  destruct (free_of squares [1; 3; 5; 7]) as [| side ?] eqn:Hsides.
  2: { apply free_of_head in Hsides as [Hin Hempty].
       right. exists side. split; [done |]. split; [| done].
       each_member Hin; lia. }
  left. split; [done |]. intros i Hi.
  do 9 (destruct i as [| i]; [
    first [ exact Hcenter
          | apply (free_of_nil _ _ _ Hcorners); by repeat constructor
          | apply (free_of_nil _ _ _ Hsides); by repeat constructor ] |]).
  lia.
Qed.

End Selector.

(** C4 (as amended). On a board without a completed line, if some empty
    cell completes a three-in-a-row for the computer's mark [ai], then
    [chooseBestMove] returns such a cell, and the one of lowest index. *)
Theorem chooseBestMove_wins_now (squares : list value) (ai human : mark) :
  calculateWinner squares = Null
  → (∃ i, empty_cell squares i ∧ completes squares ai i)
  → ∃ r, chooseBestMove squares ai human = Z.of_nat r
       ∧ empty_cell squares r ∧ completes squares ai r
       ∧ ∀ j, empty_cell squares j → completes squares ai j → r ≤ j.
Proof.
  intros Hnone (i & [Hi Hempty] & Hcomp).
  assert (wins_with squares ai i = true) as Hwin
    by by apply wins_with_completes.
  unfold chooseBestMove.
  destruct (scan squares ai) as [r |] eqn:Hscan.
  - apply scan_Some in Hscan as (Hr & Hwr & Hleast).
    pose proof (wins_with_empty _ _ _ Hwr) as Her.
    exists r. split; [done |]. split; [done |].
    split; [by apply wins_with_completes |].
    intros j [Hj Hej] Hcj.
    destruct (decide (r ≤ j)) as [| Hlt]; [done |].
    rewrite <- (wins_with_completes _ _ _ Hnone Hej) in Hcj.
    rewrite Hleast in Hcj by lia. done.
  - rewrite scan_None in Hscan. rewrite Hscan in Hwin by done. done.
Qed.

Lemma chooseBestMove_wins_now_witness :
  ∃ r, chooseBestMove
         [Mark O; Mark O; Null; Mark X; Mark X; Null; Null; Null; Null] O X
       = Z.of_nat r
     ∧ empty_cell
         [Mark O; Mark O; Null; Mark X; Mark X; Null; Null; Null; Null] r
     ∧ completes
         [Mark O; Mark O; Null; Mark X; Mark X; Null; Null; Null; Null] O r
     ∧ ∀ j,
         empty_cell
           [Mark O; Mark O; Null; Mark X; Mark X; Null; Null; Null; Null] j
         → completes
             [Mark O; Mark O; Null; Mark X; Mark X; Null; Null; Null; Null] O j
         → r ≤ j.
Proof.
  apply chooseBestMove_wins_now.
  - reflexivity.
  - exists 2. split; [split; [lia | reflexivity] |].
    exists (0, 1, 2). split; [apply list_elem_of_here |].
    split; [right; by right | by repeat split].
Defined.

(** The claim C4 fails on a board that already has a completed line: the
    bottom row would be completed for [O] at cell 8, but the loops see
    the winner [X] of the top row on every copy, and the blocking loop
    returns the first empty cell, 3, which completes nothing for [O]. *)
Lemma chooseBestMove_skips_win_on_won_board :
  empty_cell [Mark X; Mark X; Mark X; Null; Null; Null; Mark O; Mark O; Null] 8
  ∧ completes
      [Mark X; Mark X; Mark X; Null; Null; Null; Mark O; Mark O; Null] O 8
  ∧ chooseBestMove
      [Mark X; Mark X; Mark X; Null; Null; Null; Mark O; Mark O; Null] O X
    = 3%Z
  ∧ ¬ completes
        [Mark X; Mark X; Mark X; Null; Null; Null; Mark O; Mark O; Null] O 3.
Proof.
  split; [split; [lia | reflexivity] |].
  split.
  { exists (6, 7, 8). split; [by repeat constructor |].
    split; [right; by right | by repeat split]. }
  split; [reflexivity |].
  intros (l & Hin & Hon & Hm).
  each_member Hin; read_line Hm.
Qed.

(** C5 (as amended). On a board without a completed line, if no empty cell
    completes a three-in-a-row for the computer's mark [ai] and exactly one
    empty cell [j] completes one for [human], then [chooseBestMove] returns
    [j]. *)
Theorem chooseBestMove_blocks (squares : list value) (ai human : mark) (j : nat) :
  calculateWinner squares = Null
  → (∀ i, empty_cell squares i → ¬ completes squares ai i)
  → empty_cell squares j → completes squares human j
  → (∀ k, empty_cell squares k → completes squares human k → k = j)
  → chooseBestMove squares ai human = Z.of_nat j.
Proof.
  intros Hnone Hnowin [Hj Hej] Hcj Huniq.
  unfold chooseBestMove.
  destruct (scan squares ai) as [r |] eqn:Hai.
  { apply scan_Some in Hai as (Hr & Hwr & _).
    pose proof (wins_with_empty _ _ _ Hwr) as Her.
    destruct (Hnowin r); [done |]. by apply wins_with_completes. }
  destruct (scan squares human) as [r |] eqn:Hhuman.
  - apply scan_Some in Hhuman as (Hr & Hwr & _).
    pose proof (wins_with_empty _ _ _ Hwr) as Her.
    f_equal. apply Huniq; [done |]. by apply wins_with_completes.
  - rewrite scan_None in Hhuman.
    rewrite <- (wins_with_completes _ _ _ Hnone Hej) in Hcj.
    rewrite Hhuman in Hcj by done. done.
Qed.

Lemma chooseBestMove_blocks_witness :
  chooseBestMove
    [Mark X; Mark X; Null; Null; Null; Null; Null; Null; Null] O X
  = Z.of_nat 2.
Proof.
  apply chooseBestMove_blocks.
  - reflexivity.
  - intros i [Hi Hempty] (l & Hin & Hon & Hm).
    each_cell i Hempty; each_member Hin; read_line Hm.
  - split; [lia | reflexivity].
  - exists (0, 1, 2). split; [apply list_elem_of_here |].
    split; [right; by right | by repeat split].
  - intros k [Hk Hempty] (l & Hin & Hon & Hm).
    each_cell k Hempty; try reflexivity;
      each_member Hin; first [read_line Hm | exfalso; cbv in Hon; lia].
Defined.

(** The claim C5 fails on a board that already has a completed line: no
    empty cell completes a line for [O], cell 8 alone completes one for
    [X], but the first loop sees the winner [O] of the top row on every
    copy and returns the first empty cell, 3. *)
Lemma chooseBestMove_skips_block_on_won_board :
  (∀ i,
     empty_cell
       [Mark O; Mark O; Mark O; Null; Null; Null; Mark X; Mark X; Null] i
     → ¬ completes
         [Mark O; Mark O; Mark O; Null; Null; Null; Mark X; Mark X; Null] O i)
  ∧ empty_cell
      [Mark O; Mark O; Mark O; Null; Null; Null; Mark X; Mark X; Null] 8
  ∧ completes
      [Mark O; Mark O; Mark O; Null; Null; Null; Mark X; Mark X; Null] X 8
  ∧ (∀ k,
       empty_cell
         [Mark O; Mark O; Mark O; Null; Null; Null; Mark X; Mark X; Null] k
       → completes
           [Mark O; Mark O; Mark O; Null; Null; Null; Mark X; Mark X; Null] X k
       → k = 8)
  ∧ chooseBestMove
      [Mark O; Mark O; Mark O; Null; Null; Null; Mark X; Mark X; Null] O X
    = 3%Z.
Proof.
  split.
  { intros i [Hi Hempty] (l & Hin & Hon & Hm).
    each_cell i Hempty; each_member Hin;
      first [read_line Hm | exfalso; cbv in Hon; lia]. }
  split; [split; [lia | reflexivity] |].
  split.
  { exists (6, 7, 8). split; [by repeat constructor |].
    split; [right; by right | by repeat split]. }
  split; [| reflexivity].
  intros k [Hk Hempty] (l & Hin & Hon & Hm).
  each_cell k Hempty; try reflexivity;
    each_member Hin; first [read_line Hm | exfalso; cbv in Hon; lia].
Qed.

(** C6. [chooseBestMove] returns either -1 or the index of an empty cell
    of the 3x3 board, never that of an occupied cell; it returns -1 exactly
    when none of the nine cells is empty, and so the index of an empty cell
    whenever there is one. *)
Theorem chooseBestMove_empty (squares : list value) (ai human : mark) :
  (chooseBestMove squares ai human = (-1)%Z
   ∨ ∃ r, chooseBestMove squares ai human = Z.of_nat r
        ∧ empty_cell squares r)
  ∧ (chooseBestMove squares ai human = (-1)%Z
     ↔ ∀ i, i < 9 → Boolean (get squares i) = true)
  ∧ ((∃ i, empty_cell squares i)
     → ∃ r, chooseBestMove squares ai human = Z.of_nat r
          ∧ empty_cell squares r).
Proof.
  pose proof (chooseBestMove_cases squares ai human) as Hcases.
  split; [| split].
  - destruct Hcases as [[? _] | ?]; auto.
  - split.
    + intros Hr. destruct Hcases as [[_ ?] | (r & Hr' & _)]; [done | lia].
    + intros Hfull. destruct Hcases as [[? _] | (r & _ & Hr & Hempty)]; [done |].
      rewrite Hfull in Hempty by done. done.
  - intros (i & Hi & Hempty).
    destruct Hcases as [[_ Hfull] | ?]; [| done].
    rewrite Hfull in Hempty by done. done.
Qed.

Lemma chooseBestMove_empty_witness :
  ∃ r, chooseBestMove (fill 9 Null) O X = Z.of_nat r
     ∧ empty_cell (fill 9 Null) r.
Proof.
  apply (proj2 (proj2 (chooseBestMove_empty (fill 9 Null) O X))).
  exists 0. split; [lia | reflexivity].
Defined.

(** ** Draw *)

Lemma every_Boolean_full (squares : list value) :
  well_formed squares
  → every Boolean squares = true
    ↔ ∀ i, i < 9 → Boolean (get squares i) = true.
Proof.
  intros [Hlen Hholes]. unfold every, get. rewrite forallb_forall. split.
  - intros Hall i Hi.
    destruct (lookup_lt_is_Some_2 squares i) as [v Hv]; [lia |].
    rewrite Hv. simpl.
    assert (v ∈ squares) as Hin by (apply list_elem_of_lookup; eauto).
    specialize (Hall v (proj1 (list_elem_of_In _ _) Hin)).
    destruct v; [| done | done]. by destruct Hholes.
  - intros Hall v Hin%list_elem_of_In.
    destruct v; [done | |].
    + apply list_elem_of_lookup in Hin as [i Hi].
      pose proof (lookup_lt_Some _ _ _ Hi) as Hlt.
      specialize (Hall i). rewrite Hi in Hall. apply Hall. lia.
    + done.
Qed.

(** C7. On a board of nine cells, [isDraw] is true exactly when
    [calculateWinner] reports no winner and every one of the nine cells
    holds a mark. *)
Theorem isDraw_iff (squares : list value) :
  well_formed squares
  → isDraw squares = true
    ↔ calculateWinner squares = Null
      ∧ ∀ i, i < 9 → Boolean (get squares i) = true.
Proof.
  intros Hwf. unfold isDraw, winner.
  rewrite andb_true_iff, (every_Boolean_full _ Hwf), negb_true_iff.
  destruct (calculateWinner_cases squares) as [-> | [m ->]]; simpl.
  - tauto.
  - split; intros [[=] _].
Qed.

Lemma isDraw_iff_witness :
  isDraw [Mark X; Mark O; Mark X; Mark X; Mark O; Mark O; Mark O; Mark X; Mark X]
  = true
  ↔ calculateWinner
      [Mark X; Mark O; Mark X; Mark X; Mark O; Mark O; Mark O; Mark X; Mark X]
    = Null
    ∧ ∀ i, i < 9
        → Boolean
            (get [Mark X; Mark O; Mark X; Mark X; Mark O; Mark O;
                  Mark O; Mark X; Mark X] i)
          = true.
Proof.
  apply isDraw_iff. split; [reflexivity |].
  rewrite !elem_of_cons, elem_of_nil. intros H.
  repeat (destruct H as [H | H]; [discriminate H |]). exact H.
Defined.

(** ** Game session *)

Section Session.
Implicit Types (s prev render acc : State) (e : event).

Lemma gameOver_fresh : gameOver (fill 9 Null) = false.
Proof. reflexivity. Qed.

(** Unchanged dependencies of the first effect mean an unchanged
    [Boolean(winner) || isDraw]. *)
Lemma deps_same_gameOver prev render :
  deps_changed (Some prev) render = false
  → gameOver (board prev) = gameOver (board render).
Proof.
  unfold deps_changed, gameOver.
  intros [Hw Hd]%negb_false_iff%andb_true_iff.
  apply strict_eq_true in Hw. apply bool_decide_eq_true in Hd.
  by rewrite Hw, Hd.
Qed.

Lemma deps_same_board prev render :
  board render = board prev → deps_changed (Some prev) render = false.
Proof.
  unfold deps_changed. intros ->. apply negb_false_iff, andb_true_iff.
  split; [by apply strict_eq_true | by apply bool_decide_eq_true].
Qed.

Lemma aiEffect_isGameOver render acc :
  isGameOver (aiEffect render acc) = isGameOver acc.
Proof. unfold aiEffect. by repeat (case_decide || case_match). Qed.

(** The computer moves only under the three guards of its effect, as
    the render that created the effect sees them. *)
Lemma aiEffect_guards render acc :
  aiEffect render acc ≠ acc
  → mode render = pvc ∧ isGameOver render = false ∧ xIsNext render = false.
Proof.
  unfold aiEffect. intros Hmoved.
  destruct (decide (mode render ≠ pvc)) as [| Hmode]; [done |].
  destruct (isGameOver render); [done |].
  destruct (xIsNext render); [done |].
  split; [| done].
  destruct (decide (mode render = pvc)); [done | by destruct Hmode].
Qed.

Lemma aiEffect_silent render acc :
  xIsNext render = true → aiEffect render acc = acc.
Proof.
  intros Hx. destruct (decide (aiEffect render acc = acc)) as [| Hne]; [done |].
  apply aiEffect_guards in Hne as (_ & _ & ?). congruence.
Qed.

Lemma aiEffect_cases render acc :
  aiEffect render acc = acc ∨ xIsNext (aiEffect render acc) = true.
Proof. unfold aiEffect. repeat (case_decide || case_match); auto. Qed.

(** *** The flag [isGameOver] follows the board *)

Lemma runEffects_isGameOver prev render :
  flag_pending prev render
  → isGameOver (runEffects (Some prev) render) = gameOver (board render).
Proof.
  unfold runEffects, flag_pending. intros Hflag.
  rewrite aiEffect_isGameOver.
  destruct (deps_changed (Some prev) render); [done | auto].
Qed.

Lemma rerender_isGameOver fuel prev render s :
  flag_pending prev render
  → rerender fuel prev render = Some s
  → isGameOver s = gameOver (board s).
Proof.
  revert prev render. induction fuel as [| fuel IH]; intros prev render Hflag;
    cbn [rerender]; [done |].
  pose proof (runEffects_isGameOver _ _ Hflag) as Hnext.
  destruct (decide (runEffects (Some prev) render = render)) as [Heq | Hne].
  - intros [= <-]. by rewrite Heq in Hnext.
  - apply IH. intros Hsame. rewrite Hnext. by apply deps_same_gameOver.
Qed.

Lemma handle_flag_pending s e :
  isGameOver s = gameOver (board s) → flag_pending s (handle s e).
Proof.
  intros Hs Hsame. apply deps_same_gameOver in Hsame.
  destruct e as [index | |]; [| reflexivity ..].
  rewrite <- Hsame. cbn [handle]. unfold handleCellClick.
  by destruct (isGameOver s || Boolean (get (board s) index)).
Qed.

(** Between events the flag equals [Boolean(winner) || isDraw] of the
    board. *)
Lemma reachable_isGameOver s :
  reachable s → isGameOver s = gameOver (board s).
Proof.
  induction 1 as [| s e s' _ IH Hstep]; [reflexivity |].
  unfold dispatch in Hstep.
  eapply rerender_isGameOver; [| done]. by apply handle_flag_pending.
Qed.

(** *** The loop of renders stops *)

Lemma rerender_silent fuel prev render :
  xIsNext render = true → is_Some (rerender (S (S fuel)) prev render).
Proof.
  intros Hx. cbn [rerender].
  destruct (decide (runEffects (Some prev) render = render)) as [| Hne];
    [done |].
  set (next := runEffects (Some prev) render) in *.
  assert (board next = board render ∧ xIsNext next = true) as [Hb Hxn].
  { unfold next, runEffects. rewrite aiEffect_silent by done.
    by destruct (deps_changed (Some prev) render). }
  assert (runEffects (Some render) next = next) as ->.
  { unfold runEffects. rewrite deps_same_board by done.
    by apply aiEffect_silent. }
  by rewrite decide_True.
Qed.

Lemma rerender_settles fuel prev render :
  is_Some (rerender (4 + fuel) prev render).
Proof.
  cbn [rerender Nat.add].
  destruct (decide (runEffects (Some prev) render = render)) as [| Hne];
    [done |].
  set (next := runEffects (Some prev) render) in *.
  destruct (decide (xIsNext next = true)) as [Hx | Hx].
  { by apply (rerender_silent (S fuel)). }
  assert (board next = board render) as Hb.
  { unfold next, runEffects in *.
    destruct (aiEffect_cases render
      (if deps_changed (Some prev) render
       then gameOverEffect render render else render)) as [Heq | ?]; [| done].
    rewrite Heq. by destruct (deps_changed (Some prev) render). }
  assert (runEffects (Some render) next = aiEffect next next) as Hrun.
  { unfold runEffects. by rewrite deps_same_board. }
  destruct (decide (runEffects (Some render) next = next)) as [| Hne'];
    [done |].
  apply (rerender_silent fuel).
  rewrite Hrun in *. by destruct (aiEffect_cases next next).
Qed.

Lemma dispatch_settles s e : is_Some (dispatch s e).
Proof. apply (rerender_settles 1). Qed.

(** The state of the first render is stable under the effects run on
    mount. *)
Lemma mount_stable : runEffects None initial = initial.
Proof. reflexivity. Qed.

(** Whether the computer moves depends on the render alone; when it does,
    the board changes, since it writes in a cell that was empty. *)
Lemma aiEffect_quiet_or_moved render acc :
  (∀ acc', aiEffect render acc' = acc')
  ∨ board (aiEffect render acc) ≠ board render.
Proof.
  unfold aiEffect.
  destruct (decide (mode render ≠ pvc)); [by left |].
  destruct (isGameOver render); [by left |].
  destruct (negb (xIsNext render)); [| by left].
  destruct (decide (chooseBestMove (board render) O X ≠ (-1)%Z)) as [Hmove |];
    [| by left].
  right.
  destruct (chooseBestMove_cases (board render) O X)
    as [[? _] | (r & Hr & _ & Hempty)]; [done |].
  cbn. rewrite Hr, Nat2Z.id. unfold slice. intros Heq.
  pose proof (get_set_eq (board render) r (Mark O)) as Hget.
  rewrite Heq in Hget. by rewrite Hget in Hempty.
Qed.

Lemma rerender_fixpoint fuel prev render s :
  rerender fuel prev render = Some s
  → ∃ prev', runEffects (Some prev') s = s.
Proof.
  revert prev render. induction fuel as [| fuel IH]; intros prev render;
    cbn [rerender]; [done |].
  destruct (decide (runEffects (Some prev) render = render)) as [Heq | Hne].
  - intros [= <-]. eauto.
  - apply IH.
Qed.

(** Between events nothing is pending: the effects of a further render of
    the same state would change nothing.  A handler that returns without
    a [set...] call therefore ends the event. *)
Lemma reachable_settled s : reachable s → runEffects (Some s) s = s.
Proof.
  intros Hs.
  assert (∃ prev, runEffects (Some prev) s = s) as [prev Hfix].
  { destruct Hs as [| s0 e s _ Hstep]; [by exists initial |].
    by apply rerender_fixpoint in Hstep. }
  unfold runEffects in *. rewrite deps_same_board by done.
  destruct (aiEffect_quiet_or_moved s
    (if deps_changed (Some prev) s then gameOverEffect s s else s))
    as [Hquiet | Hmoved]; [done |].
  by rewrite Hfix in Hmoved.
Qed.

(** A rejected click ends there: no render, no effect, the same state. *)
Lemma dispatch_rejected s index :
  reachable s → handleCellClick s index = s
  → dispatch s (cellClicked index) = Some s.
Proof.
  intros Hs Hsame. unfold dispatch. cbn [handle max_renders rerender].
  rewrite Hsame, (reachable_settled s Hs). by rewrite decide_True.
Qed.

End Session.

(** C2 (as amended). A click on a cell that holds a mark, or while the flag
    [isGameOver] is set -- between events the flag is set exactly when the
    board has a winner or is a draw -- leaves the whole state as it is:
    board, turn, mode and flag. *)
Theorem handleCellClick_rejected (s : State) (index : nat) :
  Boolean (get (board s) index) = true
  ∨ isGameOver s = true
  ∨ (reachable s ∧ gameOver (board s) = true)
  → handleCellClick s index = s.
Proof.
  intros Hguard. unfold handleCellClick.
  assert (isGameOver s || Boolean (get (board s) index) = true) as ->; [| done].
  apply orb_true_iff.
  destruct Hguard as [Hcell | [Hover | [Hs Hover]]]; [by right | by left |].
  left. by rewrite (reachable_isGameOver s Hs).
Qed.

Lemma handleCellClick_rejected_witness :
  handleCellClick
    {| board := [Mark X; Null; Null; Null; Null; Null; Null; Null; Null];
       xIsNext := false; mode := pvp; isGameOver := false |} 0
  = {| board := [Mark X; Null; Null; Null; Null; Null; Null; Null; Null];
       xIsNext := false; mode := pvp; isGameOver := false |}.
Proof.
  apply handleCellClick_rejected. left. reflexivity.
Defined.

(** The claim C2 fails for an index outside 0..8: there is no range check,
    so on the fresh board a click at index 9 writes ['X'] past the end of
    the array, which grows to ten cells, and hands the turn to ['O']. *)
Lemma handleCellClick_past_the_end :
  ¬ (9 < 9)
  ∧ handleCellClick initial 9
    = {| board := fill 9 Null ++ [Mark X];
         xIsNext := false; mode := pvp; isGameOver := false |}
  ∧ handleCellClick initial 9 ≠ initial.
Proof.
  split; [lia |]. split; [reflexivity | discriminate].
Qed.

(** C3 (as amended). In a session that is in progress, a click on an empty
    cell inside the board writes the mark of the current turn in exactly
    that cell and always hands the turn to the other mark, whatever the
    new board is; the mode is kept, and the effect of the render that
    follows stores in [isGameOver] whether the new board has a winner or is
    a draw. *)
Theorem handleCellClick_accepted (s : State) (index : nat) :
  isGameOver s = false → gameOver (board s) = false
  → index < length (board s) → Boolean (get (board s) index) = false
  → board (handleCellClick s index) = <[index := Mark (turn s)]> (board s)
    ∧ get (board (handleCellClick s index)) index = Mark (turn s)
    ∧ (∀ j, j ≠ index
         → get (board (handleCellClick s index)) j = get (board s) j)
    ∧ xIsNext (handleCellClick s index) = negb (xIsNext s)
    ∧ turn (handleCellClick s index) ≠ turn s
    ∧ mode (handleCellClick s index) = mode s
    ∧ isGameOver (runEffects (Some s) (handleCellClick s index))
      = gameOver (board (handleCellClick s index)).
Proof.
  intros Hflag Hover Hrange Hempty.
  assert (flag_pending s (handleCellClick s index)) as Hpending.
  { apply (handle_flag_pending s (cellClicked index)). congruence. }
  apply runEffects_isGameOver in Hpending. revert Hpending.
  unfold handleCellClick. rewrite Hflag, Hempty. cbn. unfold slice.
  intros Hpending.
  split; [by apply set_in_range |].
  split; [apply get_set_eq |].
  split; [intros j Hj; by apply get_set_ne |].
  split; [done |].
  split; [unfold turn; cbn; by destruct (xIsNext s) |].
  split; [done |].
  by rewrite Hpending.
Qed.

Lemma handleCellClick_accepted_witness :
  board (handleCellClick initial 4) = <[4 := Mark (turn initial)]> (board initial)
  ∧ get (board (handleCellClick initial 4)) 4 = Mark (turn initial)
  ∧ (∀ j, j ≠ 4
       → get (board (handleCellClick initial 4)) j = get (board initial) j)
  ∧ xIsNext (handleCellClick initial 4) = negb (xIsNext initial)
  ∧ turn (handleCellClick initial 4) ≠ turn initial
  ∧ mode (handleCellClick initial 4) = mode initial
  ∧ isGameOver (runEffects (Some initial) (handleCellClick initial 4))
    = gameOver (board (handleCellClick initial 4)).
Proof.
  apply handleCellClick_accepted.
  - reflexivity.
  - reflexivity.
  - cbn. lia.
  - reflexivity.
Defined.

(** The claim C3 fails on a winning move: after the clicks 0, 3, 1, 4 of a
    two-player game it is the turn of ['X'], the click on cell 2 completes
    the top row, the new board has the winner ['X'], and the turn has
    passed to ['O'] all the same. *)
Lemma handleCellClick_flips_turn_on_win :
  run initial [cellClicked 0; cellClicked 3; cellClicked 1; cellClicked 4]
  = Some {| board := [Mark X; Mark X; Null; Mark O; Mark O; Null; Null; Null; Null];
            xIsNext := true; mode := pvp; isGameOver := false |}
  ∧ winner
      (board
         (handleCellClick
            {| board := [Mark X; Mark X; Null; Mark O; Mark O; Null; Null; Null; Null];
               xIsNext := true; mode := pvp; isGameOver := false |} 2))
    = Mark X
  ∧ gameOver
      (board
         (handleCellClick
            {| board := [Mark X; Mark X; Null; Mark O; Mark O; Null; Null; Null; Null];
               xIsNext := true; mode := pvp; isGameOver := false |} 2))
    = true
  ∧ turn {| board := [Mark X; Mark X; Null; Mark O; Mark O; Null; Null; Null; Null];
            xIsNext := true; mode := pvp; isGameOver := false |}
    = X
  ∧ turn
      (handleCellClick
         {| board := [Mark X; Mark X; Null; Mark O; Mark O; Null; Null; Null; Null];
            xIsNext := true; mode := pvp; isGameOver := false |} 2)
    = O.
Proof. by repeat split. Qed.

(** C9. Whatever the state, [restartGame] gives nine empty cells, the turn
    to ['X'] and a game in progress (flag cleared; no winner and no draw on
    the board) and keeps the mode; [switchMode] does the same and stores its
    argument as the mode.  The effects that follow change nothing more. *)
Theorem restart_resets (s : State) (newMode : Mode) :
  restartGame s
  = {| board := replicate 9 Null; xIsNext := true;
       mode := mode s; isGameOver := false |}
  ∧ switchMode s newMode
    = {| board := replicate 9 Null; xIsNext := true;
         mode := newMode; isGameOver := false |}
  ∧ turn (restartGame s) = X ∧ turn (switchMode s newMode) = X
  ∧ calculateWinner (replicate 9 Null) = Null
  ∧ isDraw (replicate 9 Null) = false
  ∧ dispatch s restartRequested = Some (restartGame s)
  ∧ dispatch s (modeSelected newMode) = Some (switchMode s newMode).
Proof.
  assert (∀ fresh : State,
            board fresh = fill 9 Null → xIsNext fresh = true
            → isGameOver fresh = false
            → rerender max_renders s fresh = Some fresh) as Hstable.
  { intros fresh Hb Hx Hflag. cbn [max_renders rerender].
    assert (runEffects (Some s) fresh = fresh) as ->; [| by rewrite decide_True].
    unfold runEffects. rewrite aiEffect_silent by done.
    destruct (deps_changed (Some s) fresh); [| done].
    destruct fresh as [b x md flag]. simpl in *. subst. reflexivity. }
  repeat split; try reflexivity; by apply Hstable.
Qed.

(** C8, the defect.  In the mode against the computer the clicks 0, 8, 6
    lead to a position where ['X'] threatens twice; the click on cell 7
    completes the bottom row.  The render that follows has the winner ['X']
    but still the flag [isGameOver = false]; both effects of that commit
    read this render, so the computer's effect passes its guard and writes
    ['O'] in cell 5 of a board that is already won.  It completes the
    middle row, which comes first in [WIN_LINES]: the winner shown
    becomes ['O']. *)
Theorem aiEffect_moves_on_won_board :
  run initial [modeSelected pvc; cellClicked 0; cellClicked 8; cellClicked 6]
  = Some {| board := [Mark X; Null; Mark O; Mark O; Mark O; Null; Mark X; Null; Mark X];
            xIsNext := true; mode := pvc; isGameOver := false |}
  ∧ handleCellClick
      {| board := [Mark X; Null; Mark O; Mark O; Mark O; Null; Mark X; Null; Mark X];
         xIsNext := true; mode := pvc; isGameOver := false |} 7
    = {| board := [Mark X; Null; Mark O; Mark O; Mark O; Null; Mark X; Mark X; Mark X];
         xIsNext := false; mode := pvc; isGameOver := false |}
  ∧ winner [Mark X; Null; Mark O; Mark O; Mark O; Null; Mark X; Mark X; Mark X]
    = Mark X
  ∧ gameOver [Mark X; Null; Mark O; Mark O; Mark O; Null; Mark X; Mark X; Mark X]
    = true
  ∧ runEffects
      (Some {| board := [Mark X; Null; Mark O; Mark O; Mark O; Null; Mark X; Null; Mark X];
               xIsNext := true; mode := pvc; isGameOver := false |})
      {| board := [Mark X; Null; Mark O; Mark O; Mark O; Null; Mark X; Mark X; Mark X];
         xIsNext := false; mode := pvc; isGameOver := false |}
    = {| board := [Mark X; Null; Mark O; Mark O; Mark O; Mark O; Mark X; Mark X; Mark X];
         xIsNext := true; mode := pvc; isGameOver := true |}
  ∧ run initial
      [modeSelected pvc; cellClicked 0; cellClicked 8; cellClicked 6;
       cellClicked 7]
    = Some {| board := [Mark X; Null; Mark O; Mark O; Mark O; Mark O; Mark X; Mark X; Mark X];
              xIsNext := true; mode := pvc; isGameOver := true |}
  ∧ winner [Mark X; Null; Mark O; Mark O; Mark O; Mark O; Mark X; Mark X; Mark X]
    = Mark O.
Proof. by repeat split. Qed.

(** * Further properties of the code *)

(** ** Outcome evaluator: the order of the scan *)

Lemma getWinningLine_from_first lines squares l :
  getWinningLine_from lines squares = Some l
  ↔ ∃ pre post, lines = pre ++ l :: post
      ∧ (∀ l', l' ∈ pre → line_test squares l' = false)
      ∧ line_test squares l = true.
Proof.
  induction lines as [| [[a b] c] rest IH]; cbn [getWinningLine_from].
  - split; [done |]. intros (pre & post & Heq & _). by destruct pre.
  - destruct (line_test squares (a, b, c)) eqn:Htest.
    + split.
      * intros [= <-]. exists [], rest. split; [done |]. split; [| done].
        intros l' Hl'. by apply elem_of_nil in Hl'.
      * intros ([| l0 pre] & post & Heq & Hpre & Hl).
        { by injection Heq as <- _. }
        injection Heq as <- _.
        rewrite Hpre in Htest by apply list_elem_of_here. done.
    + rewrite IH. split.
      * intros (pre & post & -> & Hpre & Hl).
        exists ((a, b, c) :: pre), post. split; [done |]. split; [| done].
        intros l' [-> | Hin]%elem_of_cons; auto.
      * intros ([| l0 pre] & post & Heq & Hpre & Hl).
        { injection Heq as <- _. congruence. }
        injection Heq as <- ->.
        exists pre, post. split; [done |]. split; [| done].
        intros l' Hin. apply Hpre. by apply list_elem_of_further.
Qed.

(** X1. [getWinningLine] answers the line [l] exactly when [l] is held by
    one mark and no line listed before it in [WIN_LINES] is held: with
    several completed lines the earliest in the list is reported, and
    [calculateWinner] answers the mark of that line. *)
Theorem getWinningLine_earliest (squares : list value) (l : line) :
  getWinningLine squares = Some l
  ↔ ∃ pre post m,
      WIN_LINES = pre ++ l :: post
      ∧ (∀ l' m', l' ∈ pre → ¬ line_held squares l' m')
      ∧ line_held squares l m
      ∧ calculateWinner squares = Mark m.
Proof.
  unfold getWinningLine. rewrite getWinningLine_from_first. split.
  - intros (pre & post & Heq & Hpre & Hl).
    apply line_test_held in Hl as [m Hm].
    exists pre, post, m. split; [done |]. split; [| split; [done |]].
    + intros l' m' Hin Hheld.
      assert (line_test squares l' = true) by (apply line_test_held; eauto).
      rewrite Hpre in * by done. done.
    + assert (getWinningLine squares = Some l) as Hline.
      { apply getWinningLine_from_first. exists pre, post.
        split; [done |]. split; [done |]. apply line_test_held; eauto. }
      destruct (first_line WIN_LINES squares)
        as [(_ & _ & Hnone) | (l0 & m0 & _ & Hm0 & Hw & Hsome)];
        unfold getWinningLine in Hline; [congruence |].
      unfold calculateWinner. rewrite Hw. f_equal.
      assert (l0 = l) as -> by congruence.
      by eapply line_held_inj.
  - intros (pre & post & m & Heq & Hpre & Hm & _).
    exists pre, post. split; [done |].
    split; [| apply line_test_held; eauto].
    intros l' Hin. destruct (line_test squares l') eqn:Htest; [| done].
    apply line_test_held in Htest as [m' Hm']. by destruct (Hpre l' m').
Qed.

Lemma getWinningLine_earliest_witness :
  getWinningLine
    [Mark O; Null; Null; Mark X; Mark X; Mark X; Mark O; Mark O; Mark O]
  = Some (3, 4, 5).
Proof.
  apply (proj2 (getWinningLine_earliest _ _)).
  exists [(0, 1, 2)], [(6, 7, 8); (0, 3, 6); (1, 4, 7); (2, 5, 8); (0, 4, 8); (2, 4, 6)], X.
  split; [reflexivity |]. split; [| by repeat split].
  intros l' m' Hin Hm. each_member Hin. read_line Hm.
Defined.

(** X2. A completed line stays: once the evaluator reports a winner, it
    still reports one (possibly another mark) after any value is written in
    a cell that held no mark. *)
Theorem calculateWinner_persists (squares : list value) (i : nat) (v : value) :
  Boolean (calculateWinner squares) = true
  → Boolean (get squares i) = false
  → Boolean (calculateWinner (set squares i v)) = true.
Proof.
  intros [m Hw]%Boolean_true Hempty.
  apply calculateWinner_Mark in Hw as (l & Hin & Hm).
  destruct (calculateWinner_cases (set squares i v)) as [Hnull | [m' ->]];
    [| done].
  exfalso. apply (proj1 (calculateWinner_Null _) Hnull l m Hin).
  destruct l as [[a b] c]. destruct Hm as (Ha & Hb & Hc).
  unfold line_held.
  rewrite !get_set_ne; [done | intros -> ..];
    rewrite ?Ha, ?Hb, ?Hc in Hempty; done.
Qed.

Lemma calculateWinner_persists_witness :
  Boolean
    (calculateWinner
       (set [Mark X; Mark X; Mark X; Mark O; Mark O; Null; Null; Null; Null]
            5 (Mark O)))
  = true.
Proof.
  apply calculateWinner_persists; reflexivity.
Defined.

(** ** Move selector: blocking and the fallback order *)

Lemma scan_completes_None squares m :
  calculateWinner squares = Null
  → (∀ i, empty_cell squares i → ¬ completes squares m i)
  → scan squares m = None.
Proof.
  intros Hnone Hno. apply scan_None. intros j Hj.
  destruct (wins_with squares m j) eqn:Hw; [| done].
  pose proof (wins_with_empty _ _ _ Hw) as Hempty.
  destruct (Hno j); [done |]. by apply wins_with_completes.
Qed.

(** X3. On a board without a completed line where the computer cannot win
    at once, if the human threatens to complete a line, [chooseBestMove]
    returns the lowest cell that blocks such a threat, however many
    threats there are. *)
Theorem chooseBestMove_blocks_lowest (squares : list value) (ai human : mark) :
  calculateWinner squares = Null
  → (∀ i, empty_cell squares i → ¬ completes squares ai i)
  → (∃ j, empty_cell squares j ∧ completes squares human j)
  → ∃ r, chooseBestMove squares ai human = Z.of_nat r
       ∧ empty_cell squares r ∧ completes squares human r
       ∧ ∀ j, empty_cell squares j → completes squares human j → r ≤ j.
Proof.
  intros Hnone Hnowin (j & [Hj Hej] & Hcj).
  unfold chooseBestMove. rewrite (scan_completes_None _ _ Hnone Hnowin).
  destruct (scan squares human) as [r |] eqn:Hscan.
  - apply scan_Some in Hscan as (Hr & Hwr & Hleast).
    pose proof (wins_with_empty _ _ _ Hwr) as Her.
    exists r. split; [done |]. split; [done |].
    split; [by apply wins_with_completes |].
    intros k [Hk Hek] Hck.
    destruct (decide (r ≤ k)) as [| Hlt]; [done |].
    rewrite <- (wins_with_completes _ _ _ Hnone Hek) in Hck.
    rewrite Hleast in Hck by lia. done.
  - rewrite scan_None in Hscan.
    rewrite <- (wins_with_completes _ _ _ Hnone Hej) in Hcj.
    rewrite Hscan in Hcj by done. done.
Qed.

(** A fork of ['X'] (corners 0, 6, 8 against 2, 3, 4): the cells 3 and 7
    both complete a line; the lower one is blocked. *)
Lemma chooseBestMove_blocks_lowest_witness :
  ∃ r, chooseBestMove
         [Mark X; Null; Mark O; Null; Mark O; Null; Mark X; Null; Mark X] O X
       = Z.of_nat r
     ∧ empty_cell
         [Mark X; Null; Mark O; Null; Mark O; Null; Mark X; Null; Mark X] r
     ∧ completes
         [Mark X; Null; Mark O; Null; Mark O; Null; Mark X; Null; Mark X] X r
     ∧ ∀ j,
         empty_cell
           [Mark X; Null; Mark O; Null; Mark O; Null; Mark X; Null; Mark X] j
         → completes
             [Mark X; Null; Mark O; Null; Mark O; Null; Mark X; Null; Mark X] X j
         → r ≤ j.
Proof.
  apply chooseBestMove_blocks_lowest.
  - reflexivity.
  - intros i [Hi Hempty] (l & Hin & Hon & Hm).
    each_cell i Hempty; each_member Hin;
      first [read_line Hm | exfalso; cbv in Hon; lia].
  - exists 7. split; [split; [lia | reflexivity] |].
    exists (6, 7, 8). split; [by repeat constructor |].
    split; [right; by left | by repeat split].
Defined.

(** X4. On a board without a completed line where neither side can
    complete one with its next mark, [chooseBestMove] returns the first
    empty cell in the order centre, corners 0 2 6 8, sides 1 3 5 7, and -1
    when none of them is empty. *)
Theorem chooseBestMove_preference (squares : list value) (ai human : mark) :
  calculateWinner squares = Null
  → (∀ i, empty_cell squares i
       → ¬ completes squares ai i ∧ ¬ completes squares human i)
  → chooseBestMove squares ai human
    = match find (λ i, negb (Boolean (get squares i))) preference with
      | Some i => Z.of_nat i
      | None => (-1)%Z
      end.
Proof.
  intros Hnone Hquiet. unfold chooseBestMove.
  rewrite !(scan_completes_None _ _ Hnone) by (intros i Hi; by apply Hquiet).
  unfold preference, free_of. cbn [find].
  destruct (Boolean (get squares 4)); cbn [negb]; [| done].
  repeat (rewrite filter_cons;
          match goal with
          | |- context [decide (Boolean (get squares ?k) = false)] =>
              destruct (Boolean (get squares k)); cbn [negb];
              [rewrite decide_False by done | by rewrite decide_True]
          end).
  by rewrite filter_nil.
Qed.

Lemma chooseBestMove_preference_witness :
  chooseBestMove
    [Mark X; Null; Null; Null; Mark O; Null; Null; Null; Null] X O
  = match find
            (λ i, negb (Boolean (get
               [Mark X; Null; Null; Null; Mark O; Null; Null; Null; Null] i)))
            preference with
    | Some i => Z.of_nat i
    | None => (-1)%Z
    end.
Proof.
  apply chooseBestMove_preference.
  - reflexivity.
  - intros i [Hi Hempty]. split; intros (l & Hin & Hon & Hm);
      each_cell i Hempty; each_member Hin;
        first [read_line Hm | exfalso; cbv in Hon; lia].
Defined.

(** ** Game session: what every sequence of events keeps *)

Section Invariants.
Implicit Types (s prev render acc : State) (e : event) (m : mark).






(** *** Proving a property of every state between events *)

Lemma rerender_preserves (P : State → Prop) fuel prev render s :
  (∀ prev' r, P r → P (runEffects (Some prev') r))
  → P render → rerender fuel prev render = Some s → P s.
Proof.
  intros Heffects. revert prev render.
  induction fuel as [| fuel IH]; intros prev render Hr; cbn [rerender];
    [done |].
  case_decide; [by intros [= <-] |]. apply IH. by apply Heffects.
Qed.


(** What the computer's effect does when it does something. *)
Lemma aiEffect_inv render acc :
  aiEffect render acc = acc
  ∨ ∃ r, xIsNext render = false ∧ empty_cell (board render) r
       ∧ aiEffect render acc
         = {| board := set (board render) r (Mark O);
              xIsNext := true;
              mode := mode acc;
              isGameOver := isGameOver acc |}.
Proof.
  unfold aiEffect.
  destruct (decide (mode render ≠ pvc)); [by left |].
  destruct (isGameOver render); [by left |].
  destruct (xIsNext render); [by left |]. cbn [negb].
  destruct (decide (chooseBestMove (board render) O X ≠ (-1)%Z)) as [Hmove |];
    [| by left].
  right.
  destruct (chooseBestMove_cases (board render) O X)
    as [[? _] | (r & Hr & Hempty)]; [done |].
  exists r. split; [done |]. split; [done |].
  cbn. by rewrite Hr, Nat2Z.id.
Qed.

Lemma runEffects_inv (before : option State) render :
  (board (runEffects before render) = board render
   ∧ xIsNext (runEffects before render) = xIsNext render
   ∧ mode (runEffects before render) = mode render)
  ∨ ∃ r, xIsNext render = false ∧ empty_cell (board render) r
       ∧ board (runEffects before render) = set (board render) r (Mark O)
       ∧ xIsNext (runEffects before render) = true
       ∧ mode (runEffects before render) = mode render.
Proof.
  unfold runEffects.
  set (acc := if deps_changed before render then gameOverEffect render render
              else render).
  assert (board acc = board render ∧ xIsNext acc = xIsNext render
          ∧ mode acc = mode render) as (Hb & Hx & Hm)
    by (unfold acc; by destruct (deps_changed before render)).
  destruct (aiEffect_inv render acc) as [-> | (r & Hturn & Hempty & ->)].
  - by left.
  - right. exists r. cbn. by rewrite Hm.
Qed.

Lemma handleCellClick_inv s index :
  handleCellClick s index = s
  ∨ Boolean (get (board s) index) = false
    ∧ handleCellClick s index
      = {| board := set (board s) index (Mark (turn s));
           xIsNext := negb (xIsNext s);
           mode := mode s;
           isGameOver := isGameOver s |}.
Proof.
  unfold handleCellClick.
  destruct (isGameOver s); [by left |].
  destruct (Boolean (get (board s) index)); [by left | by right].
Qed.

Lemma gameOverEffect_id s :
  isGameOver s = gameOver (board s) → gameOverEffect s s = s.
Proof. destruct s as [b x md flag]. cbn. by intros ->. Qed.

Lemma runEffects_pending prev render :
  flag_pending prev render
  → runEffects (Some prev) render
    = aiEffect render (gameOverEffect render render).
Proof.
  unfold runEffects, flag_pending. intros Hflag.
  destruct (deps_changed (Some prev) render); [done |].
  by rewrite gameOverEffect_id by auto.
Qed.

Lemma aiEffect_quiet render acc :
  mode render ≠ pvc ∨ xIsNext render = true
  ∨ chooseBestMove (board render) O X = (-1)%Z
  → aiEffect render acc = acc.
Proof.
  unfold aiEffect. intros [Hmode | [Hturn | Hfull]].
  - by rewrite decide_True.
  - rewrite Hturn. by repeat case_match.
  - rewrite Hfull. by repeat (case_match || case_decide).
Qed.

(** Where the computer has nothing to do, the renders stop after the flag
    has been brought up to date. *)
Lemma rerender_quiet fuel prev render :
  mode render ≠ pvc ∨ xIsNext render = true
  ∨ chooseBestMove (board render) O X = (-1)%Z
  → flag_pending prev render
  → rerender (S (S fuel)) prev render = Some (gameOverEffect render render).
Proof.
  intros Hquiet Hflag. cbn [rerender].
  rewrite (runEffects_pending _ _ Hflag), (aiEffect_quiet _ _ Hquiet).
  case_decide as Heq; [by rewrite Heq |].
  unfold runEffects. rewrite deps_same_board by done.
  rewrite aiEffect_quiet by done. by rewrite decide_True.
Qed.

Lemma well_formed_set squares i m :
  well_formed squares → i < 9 → well_formed (set squares i (Mark m)).
Proof.
  intros [Hlen Hholes] Hi. rewrite set_in_range by lia. split.
  - by rewrite length_insert.
  - intros [j Hj]%list_elem_of_lookup.
    destruct (decide (j = i)) as [-> | Hne].
    + rewrite list_lookup_insert_eq in Hj by lia. done.
    + rewrite list_lookup_insert_ne in Hj by done.
      apply Hholes. apply list_elem_of_lookup. eauto.
Qed.

Lemma well_formed_fresh : well_formed (fill 9 Null).
Proof.
  split; [done |]. unfold fill. by intros [? _]%elem_of_replicate.
Qed.

Lemma playable_reachable s : playable s → reachable s.
Proof.
  induction 1 as [| s e s' _ IH _ Hstep]; [constructor |].
  by econstructor.
Qed.

(** A button of the grid sits in the slot of its cell. *)
Lemma grid_lookup s slot b :
  grid s !! slot = Some (Some b)
  → onClick b = slot ∧ slot < length (board s)
    ∧ children b = get (board s) slot
    ∧ disabled b = isGameOver s || Boolean (get (board s) slot)
    ∧ win b = isWinningCell (getWinningLine (board s)) slot.
Proof.
  unfold grid, Board. rewrite list_lookup_imap.
  destruct (board s !! slot) as [v |] eqn:Hv; [| done].
  pose proof (lookup_lt_Some _ _ _ Hv) as Hlt.
  unfold get. rewrite Hv. cbn.
  destruct v; [done | |]; by intros [= <-].
Qed.

Lemma playable_well_formed s : playable s → well_formed (board s).
Proof.
  induction 1 as [| s e s' _ IH Hoffer Hstep]; [apply well_formed_fresh |].
  eapply (rerender_preserves (λ r, well_formed (board r))); [| | done].
  - intros prev r Hr.
    destruct (runEffects_inv (Some prev) r)
      as [(-> & _) | (c & _ & [Hc _] & -> & _)]; [done |].
    by apply well_formed_set.
  - destruct e as [index | |]; cbn [handle]; [| apply well_formed_fresh ..].
    destruct Hoffer as (slot & b & Hb & _ & Hclick).
    apply grid_lookup in Hb as (Hslot & Hlt & _).
    destruct (handleCellClick_inv s index) as [-> | [_ ->]]; [done |].
    apply well_formed_set; [done |]. destruct IH as [Hlen _]. lia.
Qed.

End Invariants.



(** X6. A click never erases or replaces a mark: every cell that holds a
    mark before a click event holds the same mark after the event, whatever
    the handler and the effects (the computer's move included) did. *)
Theorem click_keeps_marks (s s' : State) (index j : nat) (m : mark) :
  dispatch s (cellClicked index) = Some s'
  → get (board s) j = Mark m
  → get (board s') j = Mark m.
Proof.
  intros Hstep Hj. revert Hstep. unfold dispatch.
  apply (rerender_preserves (λ r, get (board r) j = Mark m)).
  - intros prev r Hr.
    destruct (runEffects_inv (Some prev) r)
      as [(-> & _) | (c & _ & [_ Hempty] & -> & _)]; [done |].
    rewrite get_set_ne; [done |]. intros ->. by rewrite Hr in Hempty.
  - cbn [handle].
    destruct (handleCellClick_inv s index) as [-> | [Hempty ->]]; [done |].
    cbn. rewrite get_set_ne; [done |]. intros ->. by rewrite Hj in Hempty.
Qed.

Lemma click_keeps_marks_witness :
  get (board {| board := [Mark X; Null; Null; Null; Mark O; Null; Null; Null; Mark X];
                xIsNext := true; mode := pvc; isGameOver := false |}) 0
  = Mark X.
Proof.
  apply (click_keeps_marks
           {| board := [Mark X; Null; Null; Null; Null; Null; Null; Null; Null];
              xIsNext := true; mode := pvc; isGameOver := false |}
           _ 8 0 X); reflexivity.
Defined.

(** X7. Through the page the board keeps its shape: after any sequence of
    events the rendered page can produce, the board has nine cells and no
    hole, and the grid shows nine buttons. *)
Theorem playable_nine_cells (s : State) :
  playable s
  → well_formed (board s)
    ∧ length (grid s) = 9
    ∧ ∀ slot, slot < 9 → ∃ b, grid s !! slot = Some (Some b).
Proof.
  intros Hs. pose proof (playable_well_formed s Hs) as [Hlen Hholes].
  split; [done |]. unfold grid, Board. rewrite length_imap.
  split; [done |]. intros slot Hslot. rewrite list_lookup_imap.
  destruct (lookup_lt_is_Some_2 (board s) slot) as [v Hv]; [lia |].
  rewrite Hv. cbn. destruct v; [| eauto ..].
  destruct Hholes. apply list_elem_of_lookup. eauto.
Qed.

Lemma playable_nine_cells_witness :
  well_formed (board initial)
  ∧ length (grid initial) = 9
  ∧ ∀ slot, slot < 9 → ∃ b, grid initial !! slot = Some (Some b).
Proof.
  apply playable_nine_cells. constructor.
Defined.

(** X8. Against the computer the human never waits: between the events of
    the page, in mode ['pvc'], whenever the game is not over it is the turn
    of ['X']. *)
Theorem pvc_human_to_move (s : State) :
  playable s → mode s = pvc → isGameOver s = false → xIsNext s = true.
Proof.
  intros Hs Hmode Hflag.
  pose proof (playable_well_formed s Hs) as Hwf.
  apply playable_reachable in Hs.
  pose proof (reachable_isGameOver s Hs) as Hover.
  pose proof (reachable_settled s Hs) as Hfix.
  destruct (xIsNext s) eqn:Hturn; [done |]. exfalso.
  unfold runEffects in Hfix. rewrite deps_same_board in Hfix by done.
  destruct (aiEffect_inv s s) as [_ | (c & _ & _ & Hmoved)].
  - destruct (chooseBestMove_cases (board s) O X)
      as [[_ Hfull] | (r & Hr & _)].
    + apply (every_Boolean_full _ Hwf) in Hfull.
      rewrite Hflag in Hover. symmetry in Hover.
      unfold gameOver, isDraw in Hover. rewrite Hfull in Hover.
      by destruct (Boolean (winner (board s))).
    + revert Hfix. unfold aiEffect. rewrite Hmode, Hflag, Hturn. cbn [negb].
      rewrite decide_False by (by intros []).
      rewrite decide_True by lia.
      intros Heq. apply (f_equal xIsNext) in Heq. cbn in Heq. congruence.
  - rewrite Hmoved in Hfix. apply (f_equal xIsNext) in Hfix.
    cbn in Hfix. congruence.
Qed.

Lemma pvc_human_to_move_witness :
  xIsNext {| board := [Mark X; Null; Null; Null; Mark O; Null; Null; Null; Null];
             xIsNext := true; mode := pvc; isGameOver := false |}
  = true.
Proof.
  apply pvc_human_to_move; [| reflexivity ..].
  apply (playable_dispatch
           {| board := fill 9 Null; xIsNext := true; mode := pvc;
              isGameOver := false |} (cellClicked 0)).
  - apply (playable_dispatch initial (modeSelected pvc));
      [constructor | exact I | reflexivity].
  - exists 0. eexists. split; [reflexivity |]. by split.
  - reflexivity.
Defined.

(** X9. Between events nothing is stale or pending: in every state reached
    by events the flag [isGameOver] equals [Boolean(winner) || isDraw] of
    the board, and running the effects again would change nothing. *)
Theorem between_events (s : State) :
  reachable s
  → isGameOver s = gameOver (board s) ∧ runEffects (Some s) s = s.
Proof.
  intros Hs. split; [by apply reachable_isGameOver | by apply reachable_settled].
Qed.

Lemma between_events_witness :
  isGameOver (handleCellClick initial 4)
  = gameOver (board (handleCellClick initial 4))
  ∧ runEffects (Some (handleCellClick initial 4)) (handleCellClick initial 4)
    = handleCellClick initial 4.
Proof.
  apply between_events.
  apply (reachable_dispatch initial (cellClicked 4)); [constructor | reflexivity].
Defined.

Lemma rerender_more_fuel fuel extra prev render s :
  rerender fuel prev render = Some s
  → rerender (fuel + extra) prev render = Some s.
Proof.
  revert prev render. induction fuel as [| fuel IH]; intros prev render;
    cbn [rerender Nat.add]; [done |].
  case_decide; [done | apply IH].
Qed.

(** X10. The effects cannot keep the component rendering: from any state,
    after any handler, the state is stable after at most four renders, and
    allowing more renders gives the same state. *)
Theorem renders_stop (prev render : State) :
  ∃ s, ∀ extra, rerender (4 + extra) prev render = Some s.
Proof.
  destruct (rerender_settles 0 prev render) as [s Hs].
  exists s. intros extra. by apply (rerender_more_fuel 4).
Qed.

(** X11. A click that the handler rejects -- the game is over or the cell
    holds a mark -- ends the event with the state it started from: no
    effect, and in particular no move of the computer, follows. *)
Theorem rejected_click_is_idle (s : State) (index : nat) :
  reachable s
  → isGameOver s = true ∨ Boolean (get (board s) index) = true
  → dispatch s (cellClicked index) = Some s.
Proof.
  intros Hs Hguard. apply dispatch_rejected; [done |].
  unfold handleCellClick.
  destruct Hguard as [-> | ->]; [done | by rewrite orb_true_r].
Qed.

Lemma rejected_click_is_idle_witness :
  dispatch (handleCellClick initial 4) (cellClicked 4)
  = Some (handleCellClick initial 4).
Proof.
  apply rejected_click_is_idle; [| right; reflexivity].
  apply (reachable_dispatch initial (cellClicked 4)); [constructor | reflexivity].
Defined.

(** X12. In the two-player mode a click event is the handler alone: the
    board and the turn are those [handleCellClick] produces, the computer
    adds nothing, and the flag is brought up to date with the new board. *)
Theorem pvp_click (s : State) (index : nat) :
  reachable s → mode s = pvp
  → dispatch s (cellClicked index)
    = Some {| board := board (handleCellClick s index);
              xIsNext := xIsNext (handleCellClick s index);
              mode := pvp;
              isGameOver := gameOver (board (handleCellClick s index)) |}.
Proof.
  intros Hs Hmode. unfold dispatch, max_renders. cbn [handle].
  assert (mode (handleCellClick s index) = pvp) as Hmode'.
  { by destruct (handleCellClick_inv s index) as [-> | [_ ->]]. }
  rewrite (rerender_quiet 3).
  - unfold gameOverEffect. by rewrite Hmode'.
  - left. by rewrite Hmode'.
  - apply (handle_flag_pending s (cellClicked index)).
    by apply reachable_isGameOver.
Qed.

Lemma pvp_click_witness :
  dispatch initial (cellClicked 4)
  = Some {| board := board (handleCellClick initial 4);
            xIsNext := xIsNext (handleCellClick initial 4);
            mode := pvp;
            isGameOver := gameOver (board (handleCellClick initial 4)) |}.
Proof.
  apply pvp_click; [constructor | reflexivity].
Defined.

Lemma rerender_step fuel prev render :
  rerender (S fuel) prev render
  = if decide (runEffects (Some prev) render = render) then Some render
    else rerender fuel render (runEffects (Some prev) render).
Proof. reflexivity. Qed.

(** X13. Against the computer an accepted click of ['X'] is answered within
    the same event.  With [b1] the board after the click: if
    [chooseBestMove] finds no cell on [b1], the event ends on [b1] with the
    turn left to ['O']; otherwise the computer's ['O'] is written in the
    cell it returns and the turn is back to ['X'].  The answer does not
    depend on whether [b1] already has a winner.  The flag ends up to
    date with the final board. *)
Theorem pvc_click (s : State) (index : nat) :
  mode s = pvc → xIsNext s = true
  → isGameOver s = false → gameOver (board s) = false
  → Boolean (get (board s) index) = false
  → dispatch s (cellClicked index)
    = Some
        (if decide (chooseBestMove (set (board s) index (Mark X)) O X = (-1)%Z)
         then {| board := set (board s) index (Mark X);
                 xIsNext := false;
                 mode := pvc;
                 isGameOver := gameOver (set (board s) index (Mark X)) |}
         else {| board :=
                   set (set (board s) index (Mark X))
                       (Z.to_nat (chooseBestMove (set (board s) index (Mark X)) O X))
                       (Mark O);
                 xIsNext := true;
                 mode := pvc;
                 isGameOver :=
                   gameOver
                     (set (set (board s) index (Mark X))
                          (Z.to_nat (chooseBestMove (set (board s) index (Mark X)) O X))
                          (Mark O)) |}).
Proof.
  intros Hmode Hturn Hflag Hover Hempty.
  assert (flag_pending s (handleCellClick s index)) as Hpending.
  { apply (handle_flag_pending s (cellClicked index)). congruence. }
  unfold dispatch, max_renders. cbn [handle]. revert Hpending.
  unfold handleCellClick, turn. rewrite Hflag, Hempty, Hturn, Hmode.
  cbn [orb negb]. unfold slice.
  set (b1 := set (board s) index (Mark X)).
  intros Hpending.
  destruct (decide (chooseBestMove b1 O X = (-1)%Z)) as [Hfull | Hmove].
  { rewrite (rerender_quiet 3); [done | by right; right | done]. }
  set (b2 := set b1 (Z.to_nat (chooseBestMove b1 O X)) (Mark O)).
  assert (runEffects (Some s)
            {| board := b1; xIsNext := false; mode := pvc; isGameOver := false |}
          = {| board := b2; xIsNext := true; mode := pvc;
               isGameOver := gameOver b1 |}) as Hnext.
  { rewrite (runEffects_pending _ _ Hpending).
    unfold aiEffect. cbn [mode isGameOver xIsNext board negb gameOverEffect].
    rewrite decide_False by (by intros []). by rewrite decide_True. }
  rewrite rerender_step, Hnext.
  rewrite decide_False by (intros [=]).
  rewrite (rerender_quiet 2); [done | by right; left |].
  intros Hsame. apply deps_same_gameOver in Hsame. done.
Qed.

Lemma pvc_click_witness :
  dispatch {| board := fill 9 Null; xIsNext := true; mode := pvc;
              isGameOver := false |} (cellClicked 0)
  = Some {| board := [Mark X; Null; Null; Null; Mark O; Null; Null; Null; Null];
            xIsNext := true; mode := pvc; isGameOver := false |}.
Proof.
  apply (pvc_click {| board := fill 9 Null; xIsNext := true; mode := pvc;
                      isGameOver := false |} 0); reflexivity.
Defined.

(** ** What the page shows *)

Lemma Board_lookup squares g slot b :
  Board squares g !! slot = Some (Some b)
  → onClick b = slot
    ∧ children b = get squares slot
    ∧ disabled b = g || Boolean (get squares slot)
    ∧ win b = isWinningCell (getWinningLine squares) slot.
Proof.
  unfold Board. rewrite list_lookup_imap.
  destruct (squares !! slot) as [v |] eqn:Hv; [| done].
  unfold get. rewrite Hv. cbn.
  destruct v; [done | |]; by intros [= <-].
Qed.

(** X14. The grid and the click handler agree: a button of the grid is
    enabled exactly when [handleCellClick] at the index it passes changes
    the state; a disabled button is one whose click would be rejected. *)
Theorem enabled_iff_accepted (s : State) (slot : nat) (b : Button) :
  grid s !! slot = Some (Some b)
  → disabled b = false ↔ handleCellClick s (onClick b) ≠ s.
Proof.
  intros (-> & _ & Hdisabled & _)%Board_lookup. rewrite Hdisabled.
  unfold handleCellClick.
  destruct (isGameOver s || Boolean (get (board s) slot)).
  - split; [done | by intros []].
  - split; [| done]. intros _ Heq. apply (f_equal xIsNext) in Heq.
    cbn in Heq. by destruct (xIsNext s).
Qed.

Lemma enabled_iff_accepted_witness :
  disabled {| win := false; ariaLabel := "Cell 5"; disabled := false;
              children := Null; onClick := 4 |} = false
  ↔ handleCellClick initial
      (onClick {| win := false; ariaLabel := "Cell 5"; disabled := false;
                  children := Null; onClick := 4 |})
    ≠ initial.
Proof.
  apply (enabled_iff_accepted initial 4). reflexivity.
Defined.

Lemma highlighted_Board squares g :
  well_formed squares
  → highlighted <$> Board squares g
    = isWinningCell (getWinningLine squares) <$> seq 0 9.
Proof.
  intros [Hlen Hholes]. unfold Board. rewrite fmap_imap.
  rewrite (imap_ext _ (λ j _, isWinningCell (getWinningLine squares) j)).
  - by rewrite imap_seq_0, Hlen.
  - intros j v Hv. cbn. destruct v; [| done ..].
    destruct Hholes. apply list_elem_of_lookup. eauto.
Qed.

(** X15. On a board of nine cells the grid highlights nothing while the
    evaluator reports no winner; once it reports the mark [m], exactly
    three buttons have the class [win], and each of them shows [m]. *)
Theorem winning_cells_highlighted (squares : list value) (g : bool) :
  well_formed squares
  → (calculateWinner squares = Null
     → ∀ slot b, Board squares g !! slot = Some (Some b) → win b = false)
    ∧ (∀ m, calculateWinner squares = Mark m
         → length (filter (λ w, w = true) (highlighted <$> Board squares g)) = 3
           ∧ ∀ slot b, Board squares g !! slot = Some (Some b)
               → win b = true → children b = Mark m).
Proof.
  intros Hwf. pose proof (highlighted_Board squares g Hwf) as Hcells.
  revert Hcells. unfold calculateWinner, getWinningLine.
  destruct (first_line WIN_LINES squares)
    as [(_ & Hw & Hl) | (l & m0 & Hin & Hm & Hw & Hl)];
    rewrite Hw; intros Hcells; (split; [| intros m]); try done.
  - intros _ slot b (_ & _ & _ & Hwin)%Board_lookup.
    unfold getWinningLine in Hwin. by rewrite Hwin, Hl.
  - intros [= <-]. split.
    + rewrite Hcells, Hl. clear -Hin. each_member Hin; reflexivity.
    + intros slot b (_ & -> & _ & Hwin)%Board_lookup.
      unfold getWinningLine in Hwin. rewrite Hwin, Hl.
      destruct l as [[a b'] c]. destruct Hm as (Ha & Hb & Hc). cbn.
      rewrite !orb_true_iff, !bool_decide_eq_true.
      intros [[-> | ->] | ->]; done.
Qed.

Lemma winning_cells_highlighted_witness :
  (calculateWinner
     [Mark X; Mark X; Mark X; Null; Mark O; Null; Null; Mark O; Null] = Null
   → ∀ slot b,
       Board [Mark X; Mark X; Mark X; Null; Mark O; Null; Null; Mark O; Null]
             true !! slot = Some (Some b)
       → win b = false)
  ∧ (∀ m,
       calculateWinner
         [Mark X; Mark X; Mark X; Null; Mark O; Null; Null; Mark O; Null]
       = Mark m
       → length
           (filter (λ w, w = true)
              (highlighted <$>
                 Board [Mark X; Mark X; Mark X; Null; Mark O; Null; Null;
                        Mark O; Null] true)) = 3
         ∧ ∀ slot b,
             Board [Mark X; Mark X; Mark X; Null; Mark O; Null; Null;
                    Mark O; Null] true !! slot = Some (Some b)
             → win b = true → children b = Mark m).
Proof.
  apply winning_cells_highlighted. split; [reflexivity |].
  rewrite !elem_of_cons, elem_of_nil. intros H.
  repeat (destruct H as [H | H]; [discriminate H |]). exact H.
Defined.

(** X16. The status line follows the board: it names a winner exactly
    when the evaluator reports that mark, says ['Draw!'] exactly when
    [isDraw] holds, and announces the turn -- of the mark the next click
    will write -- exactly when the board has neither winner nor draw. *)
Theorem statusText_cases (s : State) :
  (∀ m, statusText s = "Winner: " +:+ mark_string m
        ↔ calculateWinner (board s) = Mark m)
  ∧ (statusText s = "Draw!" ↔ isDraw (board s) = true)
  ∧ (statusText s = "Turn: " +:+ mark_string (turn s)
     ↔ gameOver (board s) = false).
Proof.
  unfold statusText, gameOver, isDraw, winner.
  destruct (calculateWinner_cases (board s)) as [-> | [m' ->]]; cbn [Boolean negb orb andb].
  - destruct (every Boolean (board s)); repeat split;
      try done; try (intros m; split; [by destruct m | done]);
      by destruct (turn s).
  - repeat split; try done; try (by destruct m', (turn s)).
    + by destruct m, m'.
    + by intros [= ->].
Qed.

(** ** The computer's move *)

(** X17. Whenever the computer's effect changes anything, the render it
    belongs to was in mode ['pvc'] with [isGameOver] false and ['O'] to
    move, and the change is one ['O'] written in a cell 0..8 that held no
    mark, with the turn handed to ['X']; mode and flag are left alone. *)
Theorem computer_move_legal (render acc : State) :
  aiEffect render acc ≠ acc
  → mode render = pvc ∧ isGameOver render = false ∧ xIsNext render = false
    ∧ ∃ r, empty_cell (board render) r
         ∧ chooseBestMove (board render) O X = Z.of_nat r
         ∧ aiEffect render acc
           = {| board := set (board render) r (Mark O);
                xIsNext := true;
                mode := mode acc;
                isGameOver := isGameOver acc |}.
Proof.
  intros Hmoved. pose proof (aiEffect_guards _ _ Hmoved) as (Hmode & Hflag & Hturn).
  repeat (split; [done |]).
  revert Hmoved. unfold aiEffect. rewrite Hmode, Hflag, Hturn. cbn [negb].
  rewrite decide_False by (by intros []).
  case_decide as Hmove; [| done]. intros _.
  destruct (chooseBestMove_cases (board render) O X)
    as [[? _] | (r & Hr & Hempty)]; [done |].
  exists r. split; [done |]. split; [done |].
  unfold slice. by rewrite Hr, Nat2Z.id.
Qed.

Lemma computer_move_legal_witness :
  mode {| board := [Mark X; Null; Null; Null; Null; Null; Null; Null; Null];
          xIsNext := false; mode := pvc; isGameOver := false |} = pvc
  ∧ isGameOver
      {| board := [Mark X; Null; Null; Null; Null; Null; Null; Null; Null];
         xIsNext := false; mode := pvc; isGameOver := false |} = false
  ∧ xIsNext
      {| board := [Mark X; Null; Null; Null; Null; Null; Null; Null; Null];
         xIsNext := false; mode := pvc; isGameOver := false |} = false
  ∧ ∃ r,
      empty_cell
        (board {| board := [Mark X; Null; Null; Null; Null; Null; Null; Null; Null];
                  xIsNext := false; mode := pvc; isGameOver := false |}) r
      ∧ chooseBestMove
          (board {| board := [Mark X; Null; Null; Null; Null; Null; Null; Null; Null];
                    xIsNext := false; mode := pvc; isGameOver := false |}) O X
        = Z.of_nat r
      ∧ aiEffect
          {| board := [Mark X; Null; Null; Null; Null; Null; Null; Null; Null];
             xIsNext := false; mode := pvc; isGameOver := false |}
          {| board := [Mark X; Null; Null; Null; Null; Null; Null; Null; Null];
             xIsNext := false; mode := pvc; isGameOver := false |}
        = {| board :=
               set (board
                      {| board := [Mark X; Null; Null; Null; Null; Null; Null; Null; Null];
                         xIsNext := false; mode := pvc; isGameOver := false |})
                   r (Mark O);
             xIsNext := true;
             mode := mode
                       {| board := [Mark X; Null; Null; Null; Null; Null; Null; Null; Null];
                          xIsNext := false; mode := pvc; isGameOver := false |};
             isGameOver :=
               isGameOver
                 {| board := [Mark X; Null; Null; Null; Null; Null; Null; Null; Null];
                    xIsNext := false; mode := pvc; isGameOver := false |} |}.
Proof.
  apply computer_move_legal. discriminate.
Defined.
